(** * A shallow embedding of the hypsys DG evolution operator
      ([miniapps/hypsys/lib/fe_evol.cpp]) and of the driver
      [examples/exNDH1.cpp].

    Scalars ([double]) are modelled as exact rationals [Q]; an mfem
    [Vector] is a [list Q] and a [DenseMatrix] of size NumEq x dim is the
    list of its rows.  The element-wise operations of [Vector] assume
    operands of equal size (they are [MFEM_ASSERT]ed in debug builds); the
    list versions stop at the shorter operand. *)

From Stdlib Require Import QArith Qabs ZArith List String Ascii Lia.
From Stdlib Require Import Reals Lra DecimalNat.
Import ListNotations.

Open Scope Q_scope.

(* ------------------------------------------------------------------ *)
(** ** Linear algebra of [mfem::Vector] and [mfem::DenseMatrix] *)

Definition vec := list Q.
Definition mat := list vec.

(** [x += y] *)
Fixpoint vadd (x y : vec) : vec :=
  match x, y with
  | a :: x', b :: y' => (a + b) :: vadd x' y'
  | _, _ => []
  end.

(** [x *= c] *)
Definition vscale (c : Q) (x : vec) : vec := map (fun a => c * a) x.

(** [subtract(a, x, y, z)]: [z(i) = a * (x(i) - y(i))]. *)
Fixpoint subtract (a : Q) (x y : vec) : vec :=
  match x, y with
  | p :: x', q :: y' => (a * (p - q)) :: subtract a x' y'
  | _, _ => []
  end.

(** Inner product of a row with a vector. *)
Fixpoint dot (r v : vec) : Q :=
  match r, v with
  | a :: r', b :: v' => a * b + dot r' v'
  | _, _ => 0
  end.

(** [DenseMatrix::Mult(x, y)]: [y(i) = sum_j A(i,j) x(j)]. *)
Definition Mult (A : mat) (x : vec) : vec := map (fun row => dot row x) A.

(** [DenseMatrix::operator+=]. *)
Fixpoint madd (A B : mat) : mat :=
  match A, B with
  | r :: A', s :: B' => vadd r s :: madd A' B'
  | _, _ => []
  end.

(** [std::max(a, b)] is [(a < b) ? b : a]. *)
Definition max (a b : Q) : Q := if Qlt_le_dec a b then b else a.

(** Pointwise equality of vectors of rationals. *)
Definition veq : vec -> vec -> Prop := Forall2 Qeq.

(* ------------------------------------------------------------------ *)
(** ** The hyperbolic system (the virtual interface used by FE_Evolution) *)

Record HyperbolicSystem := {
  NumEq : nat;
  (** [EvaluateFlux(u, FluxEval, e, k, i)]: the flux matrix (NumEq x dim). *)
  EvaluateFlux : vec -> nat -> nat -> nat -> mat;
  (** [GetWaveSpeed(u, normal, e, k, i)]. *)
  GetWaveSpeed : vec -> vec -> nat -> nat -> nat -> Q;
  SteadyState : bool
}.

(** The mutable work members of [FE_Evolution] touched by the routines
    below. *)
Record FE_State := {
  Flux : mat;
  FluxNbr : mat;
  z : vec;
  uOld : vec
}.

Definition set_fluxes (st : FE_State) (F G : mat) : FE_State :=
  {| Flux := F; FluxNbr := G; z := z st; uOld := uOld st |}.

(* ------------------------------------------------------------------ *)
(** ** [FE_Evolution::LaxFriedrichs] *)

(** Returns the output vector [y] and the object with its mutable members
    [Flux] and [FluxNbr] updated. *)
Definition LaxFriedrichs (hyp : HyperbolicSystem) (st : FE_State)
  (x1 x2 normal : vec) (e k i : nat) : vec * FE_State :=
  let Flux1 := EvaluateFlux hyp x1 e k i in          (* EvaluateFlux(x1, Flux) *)
  let FluxNbr1 := EvaluateFlux hyp x2 e k i in       (* EvaluateFlux(x2, FluxNbr) *)
  let Flux2 := madd Flux1 FluxNbr1 in                (* Flux += FluxNbr *)
  let ws := max (GetWaveSpeed hyp x1 normal e k i)
                (GetWaveSpeed hyp x2 normal e k i) in
  let y0 := Mult Flux2 normal in                     (* Flux.Mult(normal, y) *)
  let diff := subtract ws x1 x2 in                   (* subtract(ws, x1, x2, diff) *)
  let y1 := vadd y0 diff in                          (* y += diff *)
  let y2 := vscale (1 # 2) y1 in                     (* y *= 0.5 *)
  (y2, set_fluxes st Flux2 FluxNbr1).

(** The numerical flux as written in the documentation:
    [0.5*(F(x1)+F(x2))·n + 0.5*ws*(x1-x2)]. *)
Definition LaxFriedrichs_spec (hyp : HyperbolicSystem)
  (x1 x2 normal : vec) (e k i : nat) : vec :=
  let ws := max (GetWaveSpeed hyp x1 normal e k i)
                (GetWaveSpeed hyp x2 normal e k i) in
  vadd (vscale (1 # 2) (Mult (madd (EvaluateFlux hyp x1 e k i)
                                    (EvaluateFlux hyp x2 e k i)) normal))
       (vscale ((1 # 2) * ws) (subtract 1 x1 x2)).

(* ------------------------------------------------------------------ *)
(** ** [FE_Evolution::ConvergenceCheck] *)

Section ConvergenceCheck.

(** The C library's [sqrt] on doubles. *)
Variable sqrt : Q -> Q.

(** [Vector::Norml2()]. *)
Definition Norml2 (v : vec) : Q := sqrt (fold_right (fun a s => a * a + s) 0 v).

(** [Vector::operator-=]. *)
Fixpoint vsub (x y : vec) : vec :=
  match x, y with
  | a :: x', b :: y' => (a - b) :: vsub x' y'
  | _, _ => []
  end.

(** [for (i = 0; i < u.Size(); i++) res += pow(LumpedMassMat(i) * z(i), 2.)] *)
Fixpoint lumped_sum (LumpedMassMat zv : vec) (i n : nat) (res : Q) : Q :=
  match n with
  | O => res
  | S n' =>
      let l := nth i LumpedMassMat 0 in
      let zi := nth i zv 0 in
      lumped_sum LumpedMassMat zv (S i) n' (res + (l * zi) * (l * zi))
  end.

(** The method reads the mass matrices (its [MassMat->Mult] and the
    vector [LumpedMassMat]) and writes the mutable members [z] and
    [uOld].  The parameter [tol] is part of the signature. *)
Definition ConvergenceCheck (hyp : HyperbolicSystem) (MassMatMult : vec -> vec)
  (LumpedMassMat : vec) (st : FE_State) (dt tol : Q) (u : vec) : Q * FE_State :=
  let z1 := vsub u (uOld st) in                      (* z = u; z -= uOld *)
  let '(res, uOld1) :=
    if negb (SteadyState hyp) then
      let uOld1 := MassMatMult z1 in                 (* MassMat->Mult(z, uOld) *)
      (Norml2 uOld1 / dt, uOld1)
    else
      (sqrt (lumped_sum LumpedMassMat z1 0 (List.length u) 0) / dt, uOld st) in
  let st' := {| Flux := Flux st; FluxNbr := FluxNbr st; z := z1; uOld := u |} in
  (res, st').                                        (* uOld = u; return res *)

End ConvergenceCheck.

(* ------------------------------------------------------------------ *)
(** ** The constructor [FE_Evolution::FE_Evolution] *)

Definition code (c : ascii) : Z := Z.of_nat (nat_of_ascii c).

(** C's [strncmp]: the strings are the characters before the terminating
    NUL; a NUL inside a Rocq string also ends the comparison. *)
Fixpoint strncmp (s1 s2 : string) (n : nat) {struct n} : Z :=
  match n with
  | O => 0
  | S n' =>
      match s1, s2 with
      | EmptyString, EmptyString => 0
      | EmptyString, String c _ => - code c
      | String c _, EmptyString => code c
      | String c1 r1, String c2 r2 =>
          if Ascii.eqb c1 c2 then
            if Ascii.eqb c1 Ascii.zero then 0 else strncmp r1 r2 n'
          else code c1 - code c2
      end
  end%Z.

(** No character of the string is NUL. *)
Fixpoint nonul (s : string) : bool :=
  match s with
  | EmptyString => true
  | String c s' => negb (Ascii.eqb c Ascii.zero) && nonul s'
  end.

Inductive CtorResult :=
  | Aborted (msg : string)         (* MFEM_ABORT(msg) *)
  | Constructed (fecol : string).  (* the object, identified by its space *)

Definition msg_not_DG : string := "FiniteElementSpace must be L2 conforming (DG).".
Definition msg_not_Bernstein : string :=
  "Shape functions must be represented in Bernstein basis.".
Definition msg_inward : string := "First element has inward pointing normal.".

(** [fecol] is [fes->FEColl()->Name()]; [elem1_inward] says whether, for
    some boundary [i] of element 0, [help->Elem1No != 0] in the loop
    filling [eip].  The remaining initialisation calls library routines
    only and cannot abort from this file's code. *)
Definition FE_Evolution_ctor (fecol : string) (elem1_inward : bool) : CtorResult :=
  if negb (Z.eqb (strncmp fecol "L2" 2) 0) then Aborted msg_not_DG
  else if negb (Z.eqb (strncmp fecol "L2_T2" 5) 0) then Aborted msg_not_Bernstein
  else if elem1_inward then Aborted msg_inward
  else Constructed fecol.

(* ------------------------------------------------------------------ *)
(** ** The driver [examples/exNDH1.cpp] *)

Module ExNDH1.

(** The local variables bound to command-line options. *)
Record Options := {
  mesh_file : string;
  order : Z;
  static_cond : bool;
  pa : bool;
  visualization : bool
}.

Definition default_options : Options :=
  {| mesh_file := "../data/beam-hex.mesh"; order := 1%Z; static_cond := false;
     pa := false; visualization := true |}.

Inductive OptTarget := T_mesh_file | T_order | T_static_cond | T_pa | T_visualization.

(** The two overloads of [OptionsParser::AddOption] used by the driver. *)
Inductive OptSpec :=
  | AddOption (t : OptTarget) (short long descr : string)
  | AddToggle (t : OptTarget) (short long short_off long_off descr : string).

Definition exNDH1_options : list OptSpec :=
  [ AddOption T_mesh_file "-m" "--mesh" "Mesh file to use.";
    AddOption T_order "-o" "--order" "Finite element order (polynomial degree).";
    AddToggle T_static_cond "-sc" "--static-condensation" "-no-sc"
              "--no-static-condensation" "Enable static condensation.";
    AddToggle T_pa "-pa" "--partial-assembly" "-no-pa"
              "--no-partial-assembly" "Enable Partial Assembly.";
    AddToggle T_visualization "-vis" "--visualization" "-no-vis"
              "--no-visualization" "Enable or disable GLVis visualization." ].

Definition opt_target (o : OptSpec) : OptTarget :=
  match o with AddOption t _ _ _ | AddToggle t _ _ _ _ _ => t end.

Definition opt_short_flags (o : OptSpec) : list string :=
  match o with
  | AddOption _ s _ _ => [s]
  | AddToggle _ s _ s' _ _ => [s; s']
  end.

(** Observable actions of one MPI rank, in program order. *)
Inductive Event :=
  | EvMPIInit
  | EvParse
  | EvPrintUsage
  | EvPrintOptions
  | EvReadMesh (file : string)
  | EvUniformRefinement
  | EvParMesh
  | EvParUniformRefinement
  | EvReorientTetMesh
  | EvFECollection (name : string)
  | EvParFESpace (name : string)
  | EvPrintSize
  | EvProjectCoefficient
  | EvSetAssemblyLevelPartial (form : string)
  | EvAddDomainIntegrator (form : string)
  | EvEnableStaticCondensation
  | EvAssemble (form : string)
  | EvFinalize (form : string)
  | EvParallelAssemble (form : string)
  | EvMult (op : string)
  | EvGetTrueDofs
  | EvAssembleDiagonal
  | EvSolve (solver : string)
  | EvSetFromTrueDofs
  | EvComputeL2Error
  | EvPrintError
  | EvSaveMesh (file : string)
  | EvSaveSol (file : string)
  | EvSocketOpen (host : string) (port : Z)
  | EvSocketSend
  | EvFree
  | EvMPIFinalize.

(** Decimal digits of a natural number. *)
Fixpoint string_of_uint (d : Decimal.uint) : string :=
  match d with
  | Decimal.Nil => EmptyString
  | Decimal.D0 d => String "0"%char (string_of_uint d)
  | Decimal.D1 d => String "1"%char (string_of_uint d)
  | Decimal.D2 d => String "2"%char (string_of_uint d)
  | Decimal.D3 d => String "3"%char (string_of_uint d)
  | Decimal.D4 d => String "4"%char (string_of_uint d)
  | Decimal.D5 d => String "5"%char (string_of_uint d)
  | Decimal.D6 d => String "6"%char (string_of_uint d)
  | Decimal.D7 d => String "7"%char (string_of_uint d)
  | Decimal.D8 d => String "8"%char (string_of_uint d)
  | Decimal.D9 d => String "9"%char (string_of_uint d)
  end.

Definition decimal (n : nat) : string := string_of_uint (Nat.to_uint n).

(** [<< setfill('0') << setw(6) << n] *)
Definition setw6 (n : nat) : string :=
  let s := decimal n in
  append (String.concat "" (repeat "0"%string (6 - String.length s)%nat)) s.

Definition mesh_name (myid : nat) : string := append "mesh." (setw6 myid).
Definition sol_name (myid : nat) : string := append "sol." (setw6 myid).

Definition on_rank0 (myid : nat) (evs : list Event) : list Event :=
  if Nat.eqb myid 0 then evs else [].

(** [main] on rank [myid] of [num_procs].  [parse] is the library's
    [OptionsParser]: given the registered options, [argv] and the
    defaults, it returns [args.Good()] and the values of the bound
    variables.  [ref_levels] is the value computed from the library mesh,
    [floor(log(1000./mesh->GetNE())/log(2.)/dim)] (the loop runs zero
    times when it is negative). *)
Definition main
  (parse : list OptSpec -> list string -> Options -> bool * Options)
  (argv : list string) (num_procs myid : nat) (ref_levels : nat)
  : list Event * Z :=
  let '(good, o) := parse exNDH1_options argv default_options in
  let start := [EvMPIInit; EvParse] in
  if negb good then
    (start ++ on_rank0 myid [EvPrintUsage] ++ [EvMPIFinalize], 1%Z)
  else
    let pa_ := pa o in
    let evs :=
      start ++ on_rank0 myid [EvPrintOptions] ++
      (* 3-5 *)
      [EvReadMesh (mesh_file o)] ++ repeat EvUniformRefinement ref_levels ++
      [EvParMesh; EvParUniformRefinement; EvReorientTetMesh] ++
      (* 6 *)
      [EvFECollection "ND"; EvFECollection "H1";
       EvParFESpace "ND"; EvParFESpace "H1"] ++ on_rank0 myid [EvPrintSize] ++
      (* 7 *)
      [EvProjectCoefficient] ++
      (* 8 *)
      (if pa_ then [EvSetAssemblyLevelPartial "a";
                    EvSetAssemblyLevelPartial "a_NDH1"] else []) ++
      [EvAddDomainIntegrator "a"; EvAddDomainIntegrator "a_NDH1"] ++
      (* 9 *)
      (if static_cond o then [EvEnableStaticCondensation] else []) ++
      [EvAssemble "a"] ++ (if pa_ then [] else [EvFinalize "a"]) ++
      [EvAssemble "a_NDH1"] ++ (if pa_ then [] else [EvFinalize "a_NDH1"]) ++
      (if pa_ then [EvMult "a_NDH1"; EvGetTrueDofs]
       else [EvParallelAssemble "a_NDH1"; EvGetTrueDofs; EvMult "NDH1"]) ++
      (* 10 *)
      (if pa_ then [EvAssembleDiagonal; EvSolve "CG"]
       else [EvParallelAssemble "a"; EvSolve "HyprePCG"; EvSetFromTrueDofs]) ++
      (* 11 *)
      [EvComputeL2Error] ++ on_rank0 myid [EvPrintError] ++
      (* 12 *)
      [EvSaveMesh (mesh_name myid); EvSaveSol (sol_name myid)] ++
      (* 13 *)
      (if visualization o then [EvSocketOpen "localhost" 19916; EvSocketSend]
       else []) ++
      (* 14 *)
      [EvFree; EvMPIFinalize] in
    (evs, 0%Z).

(** The steps of the documented workflow. *)
Inductive Phase := PParse | PMesh | PSpaces | PAssemble | PSolve | PError | POutput.

Definition phase_rank (p : Phase) : nat :=
  match p with
  | PParse => 0 | PMesh => 1 | PSpaces => 2 | PAssemble => 3
  | PSolve => 4 | PError => 5 | POutput => 6
  end.

(** The step an action belongs to; MPI set-up and tear-down, the
    projection of [p_exact] and the release of memory belong to none. *)
Definition phase (ev : Event) : option Phase :=
  match ev with
  | EvParse | EvPrintUsage | EvPrintOptions => Some PParse
  | EvReadMesh _ | EvUniformRefinement | EvParMesh | EvParUniformRefinement
  | EvReorientTetMesh => Some PMesh
  | EvFECollection _ | EvParFESpace _ | EvPrintSize => Some PSpaces
  | EvSetAssemblyLevelPartial _ | EvAddDomainIntegrator _
  | EvEnableStaticCondensation | EvAssemble _ | EvFinalize _
  | EvParallelAssemble _ | EvMult _ | EvGetTrueDofs
  | EvAssembleDiagonal => Some PAssemble
  | EvSolve _ | EvSetFromTrueDofs => Some PSolve
  | EvComputeL2Error | EvPrintError => Some PError
  | EvSaveMesh _ | EvSaveSol _ | EvSocketOpen _ _ | EvSocketSend => Some POutput
  | EvMPIInit | EvProjectCoefficient | EvFree | EvMPIFinalize => None
  end.

Definition phases (evs : list Event) : list Phase :=
  fold_right (fun ev acc => match phase ev with
                            | Some p => p :: acc
                            | None => acc
                            end) [] evs.

(** No element is smaller than the one before it (starting from [m]). *)
Fixpoint nondecr_from (m : nat) (l : list nat) : bool :=
  match l with
  | [] => true
  | x :: l' => Nat.leb m x && nondecr_from x l'
  end.

Definition is_save_mesh (ev : Event) : bool :=
  match ev with EvSaveMesh _ => true | _ => false end.
Definition is_save_sol (ev : Event) : bool :=
  match ev with EvSaveSol _ => true | _ => false end.
Definition is_socket (ev : Event) : bool :=
  match ev with EvSocketOpen _ _ | EvSocketSend => true | _ => false end.
Definition is_print (ev : Event) : bool :=
  match ev with
  | EvPrintUsage | EvPrintOptions | EvPrintSize | EvPrintError => true
  | _ => false
  end.
Definition is_solve (ev : Event) : bool :=
  match ev with EvSolve _ => true | _ => false end.
(** Building assembled (sparse or hypre) matrices. *)
Definition is_matrix_build (ev : Event) : bool :=
  match ev with EvFinalize _ | EvParallelAssemble _ => true | _ => false end.
Definition is_sc_or_assemble (ev : Event) : bool :=
  match ev with EvEnableStaticCondensation | EvAssemble _ => true | _ => false end.

(** Reads a string of decimal digits (most significant first), as a
    reader of the file names would. *)
Fixpoint read_digits (s : string) (acc : nat) : nat :=
  match s with
  | EmptyString => acc
  | String c s' => read_digits s' (10 * acc + (nat_of_ascii c - 48))
  end.

End ExNDH1.

(* ------------------------------------------------------------------ *)
(** ** [FE_Evolution::ElemEval] and [FE_Evolution::FaceEval] *)

(** [ShapeEval(j,k)]: entry [(j,k)] of the [nd x nqe] table of shape
    function values, stored by rows. *)
Definition entry (A : mat) (j k : nat) : Q := nth k (nth j A []) 0.

(** [uEval = 0.; for n < NumEq: for j < nd:
       uEval(n) += uElem(n*nd+j) * ShapeEval(j,k)] *)
Definition ElemEval (NumEq nd : nat) (ShapeEval : mat) (uElem : vec) (k : nat)
  : vec :=
  map (fun n => fold_left (fun acc j => acc + nth (n * nd + j) uElem 0 * entry ShapeEval j k)
                          (seq 0 nd) 0)
      (seq 0 NumEq).

(** The face-DOF tables of [DofInfo] used by [FaceEval]. *)
Record DofInfo := {
  NumFaceDofs : nat;
  (** [BdrDofs(j,i)]: local index of the [j]-th DOF on face [i]. *)
  BdrDofs : nat -> nat -> nat;
  (** [NbrDofs(i,j,e)]: the DOF facing it across the face, negative on the
      domain boundary, at least [xSizeMPI] when owned by another task. *)
  NbrDofs : nat -> nat -> nat -> Z
}.

(** [x(i)] *)
Definition at_ (x : vec) (i : nat) : Q := nth i x 0.

(** [y(n) += a] *)
Fixpoint add_at (y : vec) (n : nat) (a : Q) : vec :=
  match y, n with
  | [], _ => []
  | b :: y', O => (b + a) :: y'
  | b :: y', S n' => b :: add_at y' n' a
  end.

(** The index read in [xMPI] for the neighbour DOF [nbr] owned by another
    task: [int((nbr - xSizeMPI) / nd) * nd * NumEq + n * nd +
    (nbr - xSizeMPI) % nd] (C integer division and remainder). *)
Definition mpi_index (NumEq nd : nat) (xSizeMPI nbr : Z) (n : nat) : Z :=
  (Z.quot (nbr - xSizeMPI) (Z.of_nat nd) * Z.of_nat nd * Z.of_nat NumEq
   + Z.of_nat n * Z.of_nat nd + Z.rem (nbr - xSizeMPI) (Z.of_nat nd))%Z.

(** [DofInd = n * ne * nd + e * nd + dofs.BdrDofs(j,i)] *)
Definition dof_index (ne nd n e b : nat) : nat := (n * ne * nd + e * nd + b)%nat.

(** The mutable members written by [FaceEval]. *)
Record FaceMembers := { nbr : Z; DofInd : nat; uNbr : Q }.

Record FaceLoop := { fy1 : vec; fy2 : vec; fm : FaceMembers }.

Section FaceEval.

Variables (NumEq ne nd : nat) (dofs : DofInfo)
          (ShapeEvalFace : nat -> nat -> nat -> Q) (inflow : vec) (xSizeMPI : Z).

(** [hyp->SetBdrCond(y1, y2, normal, attr)]: the new value of [y2]. *)
Variable SetBdrCond : vec -> vec -> vec -> Z -> vec.

(** [uNbr]: the inflow value on the domain boundary, the neighbour's
    value in [x] when this task owns it, else the value received in
    [xMPI].  (A negative index would be undefined behaviour in C;
    [Z.to_nat] sends it to 0.) *)
Definition nbr_value (x xMPI : vec) (e i n j : nat) : Q :=
  let nbr1 := NbrDofs dofs i j e in
  if (nbr1 <? 0)%Z then at_ inflow (dof_index ne nd n e (BdrDofs dofs j i))
  else if (nbr1 <? xSizeMPI)%Z
       then at_ x (Z.to_nat (Z.of_nat (n * ne * nd) + nbr1))
       else at_ xMPI (Z.to_nat (mpi_index NumEq nd xSizeMPI nbr1 n)).

(** One pass of the inner loop body, for equation [n] and face DOF [j]. *)
Definition face_step (x xMPI : vec) (e i k n j : nat) (s : FaceLoop) : FaceLoop :=
  let nbr1 := NbrDofs dofs i j e in
  let DofInd1 := dof_index ne nd n e (BdrDofs dofs j i) in
  let uNbr1 := nbr_value x xMPI e i n j in
  {| fy1 := add_at (fy1 s) n (at_ x DofInd1 * ShapeEvalFace i j k);
     fy2 := add_at (fy2 s) n (uNbr1 * ShapeEvalFace i j k);
     fm := {| nbr := nbr1; DofInd := DofInd1; uNbr := uNbr1 |} |}.

(** [y1] and [y2] have [NumEq] entries (sized by the caller); they are
    zeroed, accumulated over the two loops, and [SetBdrCond] is applied
    when the member [nbr] left by the last iteration is negative.  Returns
    [y1], [y2] and the members. *)
Definition FaceEval (x : vec) (xMPI normal : vec) (e i k : nat) (m : FaceMembers)
  : vec * vec * FaceMembers :=
  let s0 := {| fy1 := repeat 0 NumEq; fy2 := repeat 0 NumEq; fm := m |} in
  let s := fold_left (fun s n =>
             fold_left (fun s j => face_step x xMPI e i k n j s)
                       (seq 0 (NumFaceDofs dofs)) s)
           (seq 0 NumEq) s0 in
  if (nbr (fm s) <? 0)%Z
  then (fy1 s, SetBdrCond (fy1 s) (fy2 s) normal (nbr (fm s)), fm s)
  else (fy1 s, fy2 s, fm s).

End FaceEval.

(** [acc = 0; for j < cnt: acc += f(j)], the order in which the loops
    accumulate. *)
Definition loop_sum (f : nat -> Q) (cnt : nat) : Q :=
  fold_left (fun acc j => acc + f j) (seq 0 cnt) 0.

(* ------------------------------------------------------------------ *)
(** ** exNDH1: exact solution and refinement count *)

Section ExactSolution.
Local Open Scope R_scope.

(** A point [x] of the mesh is read by index, [x(i)]; the global [dim] is
    the mesh dimension. *)
Definition p_exact (dim : Z) (x : nat -> R) : R :=
  if Z.eqb dim 3 then sin (x 0%nat) * sin (x 1%nat) * sin (x 2%nat)
  else if Z.eqb dim 2 then sin (x 0%nat) * sin (x 1%nat)
  else 0.

(** [f(i) = v]: one entry of the output vector written, the others kept. *)
Definition set_entry (f : nat -> R) (i : nat) (v : R) : nat -> R :=
  fun j => if Nat.eqb j i then v else f j.

(** [gradp_exact(x, f)] writes into [f]; [xsize] is [x.Size()]. *)
Definition gradp_exact (dim : Z) (x : nat -> R) (xsize : nat) (f : nat -> R)
  : nat -> R :=
  if Z.eqb dim 3 then
    let f := set_entry f 0 (cos (x 0%nat) * sin (x 1%nat) * sin (x 2%nat)) in
    let f := set_entry f 1 (sin (x 0%nat) * cos (x 1%nat) * sin (x 2%nat)) in
    set_entry f 2 (sin (x 0%nat) * sin (x 1%nat) * cos (x 2%nat))
  else
    let f := set_entry f 0 (cos (x 0%nat) * sin (x 1%nat)) in
    let f := set_entry f 1 (sin (x 0%nat) * cos (x 1%nat)) in
    if Nat.eqb xsize 3 then set_entry f 2 0 else f.

(** [ref_levels = (int)floor(log(1000./mesh->GetNE())/log(2.)/dim)] for a
    mesh of [ne] elements in dimension [dim]; [Int_part] is [floor]. The
    loop [for (l = 0; l < ref_levels; l++)] refines
    [Z.to_nat ref_levels] times. *)
Definition ref_levels (ne dim : nat) : Z :=
  Int_part (ln (1000 / INR ne) / ln 2 / INR dim).

End ExactSolution.

(* ------------------------------------------------------------------ *)
(** ** Sample inputs *)

(** A scalar linear advection [u_t + (a u)_x + (b u)_y = 0] with velocity
    [(a, b) = (2, -1)]: flux [[2u, -u]], wave speed [|a n_x + b n_y|]. *)
Definition advection : HyperbolicSystem :=
  {| NumEq := 1;
     EvaluateFlux := fun u _ _ _ => [[2 * hd 0 u; - hd 0 u]];
     GetWaveSpeed := fun _ n _ _ _ => Qabs (2 * hd 0 n - nth 1 n 0);
     SteadyState := false |}.

Definition state0 : FE_State :=
  {| Flux := []; FluxNbr := []; z := []; uOld := [] |}.

(** Option parsers that accept (resp. reject) the command line and keep
    the defaults. *)
Definition parse_ok (_ : list ExNDH1.OptSpec) (_ : list string) (d : ExNDH1.Options)
  : bool * ExNDH1.Options := (true, d).
Definition parse_bad (_ : list ExNDH1.OptSpec) (_ : list string) (d : ExNDH1.Options)
  : bool * ExNDH1.Options := (false, d).

(** A face with two DOFs whose neighbours [0] and [1] are owned by this
    task, a face with no DOF, the constant face shape value [1/2], a
    boundary condition that mirrors the inner state, and members left at
    a boundary DOF by an earlier face. *)
Definition dofs2 : DofInfo :=
  {| NumFaceDofs := 2; BdrDofs := fun j _ => j; NbrDofs := fun _ j _ => Z.of_nat j |}.
Definition dofs_none : DofInfo :=
  {| NumFaceDofs := 0; BdrDofs := fun _ _ => 0%nat; NbrDofs := fun _ _ _ => (-1)%Z |}.
Definition shape_half (_ _ _ : nat) : Q := 1 # 2.
Definition bdr_mirror (y1 _ _ : vec) (_ : Z) : vec := y1.
Definition members_bdr : FaceMembers := {| nbr := -1; DofInd := 0; uNbr := 0 |}.

Lemma veq_refl : forall v, veq v v.
Proof. induction v; constructor; [reflexivity | assumption]. Qed.

Lemma vscale_vadd_subtract : forall c w a x1 x2,
  veq (vscale c (vadd a (subtract w x1 x2)))
      (vadd (vscale c a) (vscale (c * w) (subtract 1 x1 x2))).
Proof.
  intros c w a. induction a as [|a0 a IH]; intros x1 x2; simpl.
  - constructor.
  - destruct x1 as [|p x1], x2 as [|q x2]; simpl; try constructor.
    + ring.
    + apply IH.
Qed.

Lemma dot_vadd_self : forall r n, dot (vadd r r) n == 2 * dot r n.
Proof.
  induction r as [|a r IH]; intros [|b n]; simpl; try ring.
  rewrite IH. ring.
Qed.

(** C1: [LaxFriedrichs] returns
    [0.5*(F(x1)+F(x2))·normal + 0.5*ws*(x1-x2)], where [F] is
    [hyp->EvaluateFlux] and [ws] the larger of the two wave speeds. *)
Theorem LaxFriedrichs_formula : forall hyp st x1 x2 normal e k i,
  veq (fst (LaxFriedrichs hyp st x1 x2 normal e k i))
      (LaxFriedrichs_spec hyp x1 x2 normal e k i).
Proof.
  intros. unfold LaxFriedrichs, LaxFriedrichs_spec; simpl.
  apply vscale_vadd_subtract.
Qed.

Lemma half_flux_self : forall F u ws n,
  List.length u = List.length F ->
  veq (vscale (1 # 2) (vadd (Mult (madd F F) n) (subtract ws u u))) (Mult F n).
Proof.
  induction F as [|r F IH]; intros [|p u] ws n Hlen; simpl in *;
    try discriminate; constructor.
  - rewrite dot_vadd_self. ring.
  - apply IH. lia.
Qed.

(** C9: the flux is consistent: with both states equal to [u] (of
    NumEq components, as the flux matrix has rows) the result is
    [EvaluateFlux(u)·normal]. *)
Theorem LaxFriedrichs_consistent : forall hyp st u normal e k i,
  List.length u = List.length (EvaluateFlux hyp u e k i) ->
  veq (fst (LaxFriedrichs hyp st u u normal e k i))
      (Mult (EvaluateFlux hyp u e k i) normal).
Proof.
  intros hyp st u normal e k i Hlen. unfold LaxFriedrichs; simpl.
  apply half_flux_self. exact Hlen.
Qed.

(* ------------------------------------------------------------------ *)
(** ** ConvergenceCheck *)

(** C10: [ConvergenceCheck] does not read [tol]: calls differing only in
    [tol] return the same residual and the same object state, and after a
    call [uOld] holds the argument [u]. *)
Theorem ConvergenceCheck_tol_independent :
  forall sqrt hyp MassMatMult LumpedMassMat st dt tol1 tol2 u,
    ConvergenceCheck sqrt hyp MassMatMult LumpedMassMat st dt tol1 u =
    ConvergenceCheck sqrt hyp MassMatMult LumpedMassMat st dt tol2 u /\
    uOld (snd (ConvergenceCheck sqrt hyp MassMatMult LumpedMassMat st dt tol1 u)) = u.
Proof.
  intros. split; [reflexivity |].
  unfold ConvergenceCheck. destruct (SteadyState hyp); reflexivity.
Qed.

(* ------------------------------------------------------------------ *)
(** ** The constructor's guards *)

Lemma code_inj : forall c d, code c = code d -> c = d.
Proof.
  intros c d H. unfold code in H. apply Nat2Z.inj in H.
  rewrite <- (ascii_nat_embedding c), <- (ascii_nat_embedding d), H.
  reflexivity.
Qed.

Lemma code_zero : forall c, code c = 0%Z -> c = Ascii.zero.
Proof.
  intros c H. apply code_inj. rewrite H. reflexivity.
Qed.

(** [strncmp(s, p, strlen(p)) == 0] exactly when [p] is a prefix of [s]
    (for a [p] without NUL). *)
Lemma strncmp_zero_prefix : forall p s,
  nonul p = true -> strncmp s p (String.length p) = 0%Z -> prefix p s = true.
Proof.
  induction p as [|c p IH]; intros s Hn H; [destruct s; reflexivity |].
  simpl in Hn. apply andb_prop in Hn as [Hc Hn].
  destruct (Ascii.eqb_spec c Ascii.zero) as [->|Hcz]; [discriminate |].
  destruct s as [|d s]; simpl in H.
  - exfalso. apply Hcz, code_zero. lia.
  - destruct (Ascii.eqb_spec d c) as [->|Hdc].
    + simpl. destruct (ascii_dec c c) as [_|]; [| contradiction].
      destruct (Ascii.eqb_spec c Ascii.zero); [contradiction |].
      apply IH; assumption.
    + exfalso. apply Hdc, code_inj. lia.
Qed.

Lemma prefix_strncmp_zero : forall p s,
  prefix p s = true -> strncmp s p (String.length p) = 0%Z.
Proof.
  induction p as [|c p IH]; intros s H; [reflexivity |].
  destruct s as [|d s]; simpl in H; [discriminate |].
  destruct (ascii_dec c d) as [<-|]; [| discriminate].
  simpl. rewrite Ascii.eqb_refl.
  destruct (Ascii.eqb c Ascii.zero); [reflexivity | apply IH; exact H].
Qed.

Lemma ctor_not_L2 : forall fecol elem1_inward,
  prefix "L2" fecol = false ->
  FE_Evolution_ctor fecol elem1_inward = Aborted msg_not_DG.
Proof.
  intros fecol inward Hp. unfold FE_Evolution_ctor.
  destruct (Z.eqb_spec (strncmp fecol "L2" 2) 0) as [H|H]; [| reflexivity].
  apply strncmp_zero_prefix in H; [congruence | reflexivity].
Qed.

(** C2: a space whose collection name does not begin with ["L2"] is
    rejected by the first [MFEM_ABORT], whatever the rest of the set-up. *)
Theorem FE_Evolution_ctor_rejects_non_DG : forall fecol elem1_inward,
  prefix "L2" fecol = false ->
  FE_Evolution_ctor fecol elem1_inward = Aborted msg_not_DG.
Proof. exact ctor_not_L2. Qed.

(** C8: every collection whose name does not begin with ["L2_T2"] is
    rejected: by the DG guard when the name does not begin with ["L2"],
    by the Bernstein-basis guard otherwise. *)
Theorem FE_Evolution_ctor_requires_Bernstein : forall fecol elem1_inward,
  prefix "L2_T2" fecol = false ->
  FE_Evolution_ctor fecol elem1_inward =
    Aborted (if prefix "L2" fecol then msg_not_Bernstein else msg_not_DG).
Proof.
  intros fecol inward Hp. destruct (prefix "L2" fecol) eqn:HL2.
  - unfold FE_Evolution_ctor.
    pose proof (prefix_strncmp_zero "L2" fecol HL2) as H2.
    change (strncmp fecol "L2" 2 = 0%Z) in H2.
    rewrite H2.
    destruct (Z.eqb_spec (strncmp fecol "L2_T2" 5) 0) as [H|H]; [| reflexivity].
    apply strncmp_zero_prefix in H; [congruence | reflexivity].
  - apply ctor_not_L2. exact HL2.
Qed.

(* ------------------------------------------------------------------ *)
(** ** The driver *)

Import ExNDH1.

Lemma phases_app : forall a b, phases (a ++ b) = phases a ++ phases b.
Proof.
  induction a as [|ev a IH]; intros b; [reflexivity |].
  simpl. rewrite IH. destruct (phase ev); reflexivity.
Qed.

Lemma phases_repeat : forall n,
  phases (repeat EvUniformRefinement n) = repeat PMesh n.
Proof. induction n as [|n IH]; simpl; [reflexivity | rewrite IH; reflexivity]. Qed.

Lemma filter_repeat_false : forall (f : Event -> bool) x n,
  f x = false -> filter f (repeat x n) = [].
Proof. intros f x n Hf. induction n; simpl; [reflexivity | rewrite Hf; assumption]. Qed.

Lemma nondecr_from_mono : forall m x l,
  (m <= x)%nat -> nondecr_from x l = true -> nondecr_from m l = true.
Proof.
  intros m x [|y l] Hmx H; [reflexivity |].
  simpl in *. apply andb_prop in H as [Hxy H].
  apply Nat.leb_le in Hxy. rewrite H, andb_true_r. apply Nat.leb_le. lia.
Qed.

Lemma nondecr_from_repeat : forall m x n l,
  (m <= x)%nat -> nondecr_from x l = true ->
  nondecr_from m (repeat x n ++ l) = true.
Proof.
  intros m x n l Hmx Hl. revert m Hmx.
  induction n as [|n IH]; intros m Hmx; simpl.
  - apply (nondecr_from_mono m x); assumption.
  - apply andb_true_intro. split; [apply Nat.leb_le; exact Hmx | apply IH; lia].
Qed.

(** C3: when [args.Good()] is false the program prints the usage on rank
    0 only, calls [MPI_Finalize] and returns 1; nothing but MPI start-up,
    parsing, the usage message and [MPI_Finalize] happens. *)
Theorem main_parse_failure : forall parse argv num_procs myid ref_levels,
  fst (parse exNDH1_options argv default_options) = false ->
  let r := main parse argv num_procs myid ref_levels in
  snd r = 1%Z /\
  fst r = [EvMPIInit; EvParse] ++ on_rank0 myid [EvPrintUsage] ++ [EvMPIFinalize] /\
  (In EvPrintUsage (fst r) <-> myid = 0%nat) /\
  (forall ev, In ev (fst r) -> phase ev = None \/ phase ev = Some PParse).
Proof.
  intros parse argv num_procs myid ref_levels Hbad r. subst r. unfold main.
  destruct (parse exNDH1_options argv default_options) as [good o].
  simpl in Hbad. subst good. simpl.
  unfold on_rank0. destruct (Nat.eqb_spec myid 0) as [->|Hne]; simpl.
  - repeat split; [auto | intros ev Hev; intuition (subst; simpl; auto)].
  - repeat split; [intuition discriminate | contradiction |].
    intros ev Hev; intuition (subst; simpl; auto).
Qed.

(** C4: the driver registers exactly five options: [-m], [-o],
    [-sc]/[-no-sc], [-pa]/[-no-pa] and [-vis]/[-no-vis]. *)
Theorem exNDH1_registered_options :
  List.length exNDH1_options = 5%nat /\
  map opt_target exNDH1_options =
    [T_mesh_file; T_order; T_static_cond; T_pa; T_visualization] /\
  map opt_short_flags exNDH1_options =
    [["-m"%string]; ["-o"%string]; ["-sc"%string; "-no-sc"%string];
     ["-pa"%string; "-no-pa"%string]; ["-vis"%string; "-no-vis"%string]].
Proof. repeat split. Qed.

(** Unfolds [main] on a run whose options parse, case-splits on the
    options and on the rank, and computes the trace around the refinement
    loop. *)
Ltac open_main :=
  match goal with
  | H : fst (?parse ?opts ?argv ?defs) = true
    |- context [main _ _ _ ?myid ?rl] =>
      unfold main; destruct (parse opts argv defs) as [good o];
      simpl in H; subst good; cbn [snd]; unfold on_rank0;
      destruct (Nat.eqb myid 0), (pa o), (static_cond o), (visualization o);
      remember (repeat EvUniformRefinement rl) as R; simpl; subst R
  end.

(** C5: on a run whose options parse, rank [myid] saves exactly one mesh
    file [mesh.NNNNNN] and one solution file [sol.NNNNNN] whatever the
    options, and it opens the socket to the GLVis server and sends the
    mesh and solution exactly when the visualization flag is set. *)
Theorem main_output_files : forall parse argv num_procs myid ref_levels,
  fst (parse exNDH1_options argv default_options) = true ->
  let vis := visualization (snd (parse exNDH1_options argv default_options)) in
  let tr := fst (main parse argv num_procs myid ref_levels) in
  filter is_save_mesh tr = [EvSaveMesh (mesh_name myid)] /\
  filter is_save_sol tr = [EvSaveSol (sol_name myid)] /\
  filter is_socket tr =
    (if vis then [EvSocketOpen "localhost" 19916; EvSocketSend] else []) /\
  (In (EvSocketOpen "localhost" 19916) tr <-> vis = true) /\
  (In EvSocketSend tr <-> vis = true).
Proof.
  intros parse argv num_procs myid ref_levels Hgood vis tr.
  assert (Hsock : filter is_socket tr =
    (if vis then [EvSocketOpen "localhost" 19916; EvSocketSend] else [])).
  { subst vis tr. open_main;
      rewrite filter_app, filter_repeat_false by reflexivity; reflexivity. }
  assert (Hin : forall ev, is_socket ev = true ->
    (In ev tr <-> In ev (if vis then [EvSocketOpen "localhost" 19916; EvSocketSend] else []))).
  { intros ev Hev. rewrite <- Hsock, filter_In. tauto. }
  split; [| split; [| split; [exact Hsock | split]]].
  - subst vis tr. open_main;
      rewrite filter_app, filter_repeat_false by reflexivity; reflexivity.
  - subst vis tr. open_main;
      rewrite filter_app, filter_repeat_false by reflexivity; reflexivity.
  - rewrite Hin by reflexivity. destruct vis; simpl; intuition discriminate.
  - rewrite Hin by reflexivity. destruct vis; simpl; intuition discriminate.
Qed.

(** C6: on a run whose options parse, the actions follow the documented
    workflow: parsing, mesh, spaces, assembly, solve, error, output, with
    no action of a later step before one of an earlier step, every step
    present, and exit code 0. *)
Theorem main_phase_order : forall parse argv num_procs myid ref_levels,
  fst (parse exNDH1_options argv default_options) = true ->
  let r := main parse argv num_procs myid ref_levels in
  nondecr_from 0 (map phase_rank (phases (fst r))) = true /\
  (forall p, In p (phases (fst r))) /\
  snd r = 0%Z.
Proof.
  intros parse argv num_procs myid ref_levels Hgood r. subst r.
  open_main; rewrite phases_app, phases_repeat; simpl;
    rewrite ?map_app, ?map_repeat; simpl;
    (split; [apply nondecr_from_repeat; (lia || reflexivity) |
             split; [intros p; destruct p; rewrite ?in_app_iff; simpl; tauto
                    | reflexivity]]).
Qed.

(* ------------------------------------------------------------------ *)
(** ** Evaluations at sample inputs *)

Example LaxFriedrichs_advection :
  veq (fst (LaxFriedrichs advection state0 [3] [1] [1; 0] 0 0 0)) [6].
Proof. constructor; [reflexivity | constructor]. Qed.

Lemma LaxFriedrichs_consistent_witness :
  List.length [3] = List.length (EvaluateFlux advection [3] 0 0 0) /\
  veq (fst (LaxFriedrichs advection state0 [3] [3] [1; 0] 0 0 0))
      (Mult (EvaluateFlux advection [3] 0 0 0) [1; 0]).
Proof.
  split; [reflexivity |].
  apply (LaxFriedrichs_consistent advection state0 [3] [1; 0] 0 0 0).
  reflexivity.
Defined.

Example FE_Evolution_ctor_Bernstein_ok :
  FE_Evolution_ctor "L2_T2_3D_P2" false = Constructed "L2_T2_3D_P2".
Proof. reflexivity. Qed.

Lemma FE_Evolution_ctor_rejects_non_DG_witness :
  prefix "L2" "H1_3D_P1" = false /\
  FE_Evolution_ctor "H1_3D_P1" false = Aborted msg_not_DG.
Proof.
  split; [reflexivity |].
  apply (FE_Evolution_ctor_rejects_non_DG "H1_3D_P1" false). reflexivity.
Defined.

Lemma FE_Evolution_ctor_requires_Bernstein_witness :
  prefix "L2_T2" "L2_T1_2D_P1" = false /\
  FE_Evolution_ctor "L2_T1_2D_P1" false = Aborted msg_not_Bernstein.
Proof.
  split; [reflexivity |].
  apply (FE_Evolution_ctor_requires_Bernstein "L2_T1_2D_P1" false). reflexivity.
Defined.

Lemma main_parse_failure_witness :
  fst (parse_bad exNDH1_options [] default_options) = false /\
  snd (main parse_bad [] 4 1 2) = 1%Z.
Proof.
  split; [reflexivity |].
  apply (main_parse_failure parse_bad [] 4 1 2). reflexivity.
Defined.

Example mesh_name_rank3 : mesh_name 3 = "mesh.000003"%string.
Proof. reflexivity. Qed.

Lemma main_output_files_witness :
  fst (parse_ok exNDH1_options [] default_options) = true /\
  filter is_save_mesh (fst (main parse_ok [] 4 3 2)) = [EvSaveMesh "mesh.000003"].
Proof.
  split; [reflexivity |].
  apply (main_output_files parse_ok [] 4 3 2). reflexivity.
Defined.

Lemma main_phase_order_witness :
  fst (parse_ok exNDH1_options [] default_options) = true /\
  nondecr_from 0 (map phase_rank (phases (fst (main parse_ok [] 4 0 2)))) = true.
Proof.
  split; [reflexivity |].
  apply (main_phase_order parse_ok [] 4 0 2). reflexivity.
Defined.

(* ------------------------------------------------------------------ *)
(** ** Sums accumulated by the evaluation loops *)

Lemma fold_sum_shift : forall (g : nat -> Q) l a,
  fold_left (fun acc j => acc + g j) l a == a + fold_left (fun acc j => acc + g j) l 0.
Proof.
  intros g l. induction l as [|j l IH]; intros a; simpl; [ring |].
  rewrite (IH (a + g j)), (IH (0 + g j)). ring.
Qed.

Lemma fold_sum_ext : forall (g h : nat -> Q) l,
  (forall j, In j l -> g j == h j) ->
  fold_left (fun acc j => acc + g j) l 0 == fold_left (fun acc j => acc + h j) l 0.
Proof.
  intros g h l. induction l as [|j l IH]; intros Hgh; simpl; [reflexivity |].
  rewrite (fold_sum_shift g), (fold_sum_shift h).
  rewrite IH by (intros; apply Hgh; right; assumption).
  rewrite (Hgh j) by (left; reflexivity). reflexivity.
Qed.

Lemma fold_sum_ext_eq : forall (g h : nat -> Q) l a,
  (forall j, In j l -> g j = h j) ->
  fold_left (fun acc j => acc + g j) l a = fold_left (fun acc j => acc + h j) l a.
Proof.
  intros g h l. induction l as [|j l IH]; intros a Hgh; simpl; [reflexivity |].
  rewrite (Hgh j) by (left; reflexivity).
  apply IH. intros j' Hj'. apply Hgh. right. exact Hj'.
Qed.

Lemma fold_sum_lin : forall (g h : nat -> Q) a l,
  fold_left (fun acc j => acc + (a * g j + h j)) l 0 ==
  a * fold_left (fun acc j => acc + g j) l 0 + fold_left (fun acc j => acc + h j) l 0.
Proof.
  intros g h a l. induction l as [|j l IH]; simpl; [ring |].
  rewrite (fold_sum_shift (fun j => a * g j + h j)), (fold_sum_shift g),
          (fold_sum_shift h), IH. ring.
Qed.

Lemma fold_sum_scale : forall (g : nat -> Q) a l,
  fold_left (fun acc j => acc + a * g j) l 0 == a * fold_left (fun acc j => acc + g j) l 0.
Proof.
  intros g a l. induction l as [|j l IH]; simpl; [ring |].
  rewrite (fold_sum_shift (fun j => a * g j)), (fold_sum_shift g), IH. ring.
Qed.

Lemma nth_vadd_vscale : forall a u v i,
  List.length u = List.length v ->
  nth i (vadd (vscale a u) v) 0 == a * nth i u 0 + nth i v 0.
Proof.
  intros a u. induction u as [|p u IH]; intros [|q v] i Hl; simpl in Hl;
    try discriminate.
  - destruct i; simpl; ring.
  - destruct i; simpl; [reflexivity | apply IH; lia].
Qed.

Lemma nth_map_seq : forall (f : nat -> Q) N n,
  (n < N)%nat -> nth n (map f (seq 0 N)) 0 = f n.
Proof.
  intros f N n Hn.
  rewrite nth_indep with (d' := f 0%nat) by (rewrite length_map, length_seq; exact Hn).
  rewrite map_nth, seq_nth by exact Hn. reflexivity.
Qed.

(** ElemEval reproduces a constant state: when the coefficients of
    equation [n] all equal [c] and the shape functions sum to one at the
    quadrature point (the partition of unity of the Bernstein basis), the
    evaluated value of equation [n] is [c]. *)
Theorem ElemEval_constant : forall NumEq nd ShapeEval uElem k n c,
  (n < NumEq)%nat ->
  (forall j, (j < nd)%nat -> nth (n * nd + j) uElem 0 == c) ->
  loop_sum (fun j => entry ShapeEval j k) nd == 1 ->
  nth n (ElemEval NumEq nd ShapeEval uElem k) 0 == c.
Proof.
  intros NumEq nd S u k n c Hn Hc H1. unfold ElemEval.
  rewrite nth_map_seq by exact Hn. unfold loop_sum in H1.
  rewrite (fold_sum_ext _ (fun j => c * entry S j k)).
  - rewrite fold_sum_scale, H1. ring.
  - intros j Hj. apply in_seq in Hj. rewrite Hc by lia. reflexivity.
Qed.

Lemma veq_map_seq_lin : forall (f g h : nat -> Q) a l,
  (forall n, In n l -> f n == a * g n + h n) ->
  veq (map f l) (vadd (vscale a (map g l)) (map h l)).
Proof.
  intros f g h a l. induction l as [|n l IH]; intros H; simpl; constructor.
  - apply H. left. reflexivity.
  - apply IH. intros m Hm. apply H. right. exact Hm.
Qed.

(** ElemEval is linear in the element's coefficient vector. *)
Theorem ElemEval_linear : forall NumEq nd ShapeEval u v a k,
  List.length u = List.length v ->
  veq (ElemEval NumEq nd ShapeEval (vadd (vscale a u) v) k)
      (vadd (vscale a (ElemEval NumEq nd ShapeEval u k))
            (ElemEval NumEq nd ShapeEval v k)).
Proof.
  intros NumEq nd S u v a k Hl. unfold ElemEval.
  apply veq_map_seq_lin. intros n _.
  rewrite <- fold_sum_lin. apply fold_sum_ext. intros j _.
  rewrite nth_vadd_vscale by exact Hl. ring.
Qed.

(* ------------------------------------------------------------------ *)
(** ** FaceEval *)

Lemma length_add_at : forall y n a, List.length (add_at y n a) = List.length y.
Proof. induction y as [|b y IH]; intros [|n] a; simpl; auto. Qed.

Lemma nth_add_at : forall y n a m,
  (n < List.length y)%nat ->
  nth m (add_at y n a) 0 = if Nat.eqb m n then nth m y 0 + a else nth m y 0.
Proof.
  induction y as [|b y IH]; intros n a m Hn; simpl in Hn; [lia |].
  destruct n as [|n], m as [|m]; simpl; try reflexivity.
  apply IH. lia.
Qed.

Lemma fold_add_at : forall (t : nat -> Q) n js y,
  (n < List.length y)%nat ->
  List.length (fold_left (fun y j => add_at y n (t j)) js y) = List.length y /\
  forall m, nth m (fold_left (fun y j => add_at y n (t j)) js y) 0 =
    if Nat.eqb m n then fold_left (fun acc j => acc + t j) js (nth m y 0)
    else nth m y 0.
Proof.
  intros t n js. induction js as [|j js IH]; intros y Hn; simpl.
  - split; [reflexivity | intros m; destruct (Nat.eqb m n); reflexivity].
  - destruct (IH (add_at y n (t j))) as [Hl Hm]; [rewrite length_add_at; exact Hn |].
    split; [rewrite Hl; apply length_add_at |].
    intros m. rewrite Hm, nth_add_at by exact Hn.
    destruct (Nat.eqb_spec m n); reflexivity.
Qed.

Lemma nth_repeat_zero : forall N m, nth m (repeat 0 N) 0 = 0.
Proof. intros. apply nth_repeat. Qed.

(** The nested loops starting from zero vectors: entry [m < N] holds the
    sum over the face DOFs, the others are still zero. *)
Lemma outer_add_at : forall (t : nat -> nat -> Q) NumEq NFD N,
  (N <= NumEq)%nat ->
  let Y := fold_left (fun y n => fold_left (fun y j => add_at y n (t n j)) (seq 0 NFD) y)
                     (seq 0 N) (repeat 0 NumEq) in
  List.length Y = NumEq /\
  forall m, nth m Y 0 = if Nat.ltb m N then loop_sum (t m) NFD else 0.
Proof.
  intros t NumEq NFD N. induction N as [|N IH]; intros HN Y; subst Y.
  - simpl. split; [apply repeat_length | intros m; apply nth_repeat_zero].
  - rewrite seq_S, fold_left_app. simpl.
    destruct IH as [Hl Hm]; [lia |].
    destruct (fold_add_at (t N) N (seq 0 NFD)
      (fold_left (fun y n => fold_left (fun y j => add_at y n (t n j)) (seq 0 NFD) y)
                 (seq 0 N) (repeat 0 NumEq))) as [Hl' Hm']; [rewrite Hl; lia |].
    split; [rewrite Hl'; exact Hl |].
    intros m. rewrite Hm', Hm.
    destruct (Nat.eqb_spec m N) as [->|Hne].
    + rewrite Nat.ltb_irrefl, (proj2 (Nat.ltb_lt N (S N))) by lia. reflexivity.
    + destruct (Nat.ltb_spec m N), (Nat.ltb_spec m (S N)); try lia; reflexivity.
Qed.

Section FaceEvalFacts.

Variables (NumEq ne nd : nat) (dofs : DofInfo)
          (ShapeEvalFace : nat -> nat -> nat -> Q) (inflow : vec) (xSizeMPI : Z)
          (SetBdrCond : vec -> vec -> vec -> Z -> vec)
          (x xMPI normal : vec) (e i k : nat).

Let step n j s :=
  face_step NumEq ne nd dofs ShapeEvalFace inflow xSizeMPI x xMPI e i k n j s.
Let t1 n j := at_ x (dof_index ne nd n e (BdrDofs dofs j i)) * ShapeEvalFace i j k.
Let t2 n j := nbr_value NumEq ne nd dofs inflow xSizeMPI x xMPI e i n j
              * ShapeEvalFace i j k.
Let loops (s : FaceLoop) :=
  fold_left (fun s n => fold_left (fun s j => step n j s) (seq 0 (NumFaceDofs dofs)) s)
            (seq 0 NumEq) s.

Lemma loops_fy1 : forall s,
  fy1 (loops s) =
  fold_left (fun y n => fold_left (fun y j => add_at y n (t1 n j))
                                  (seq 0 (NumFaceDofs dofs)) y)
            (seq 0 NumEq) (fy1 s).
Proof.
  intros s. unfold loops. generalize (seq 0 NumEq) as ns.
  intros ns. revert s. induction ns as [|n ns IHn]; intros s; [reflexivity |].
  simpl. rewrite IHn. f_equal.
  generalize (seq 0 (NumFaceDofs dofs)) as js. intros js. revert s.
  induction js as [|j js IHj]; intros s; [reflexivity |]. simpl. apply IHj.
Qed.

Lemma loops_fy2 : forall s,
  fy2 (loops s) =
  fold_left (fun y n => fold_left (fun y j => add_at y n (t2 n j))
                                  (seq 0 (NumFaceDofs dofs)) y)
            (seq 0 NumEq) (fy2 s).
Proof.
  intros s. unfold loops. generalize (seq 0 NumEq) as ns.
  intros ns. revert s. induction ns as [|n ns IHn]; intros s; [reflexivity |].
  simpl. rewrite IHn. f_equal.
  generalize (seq 0 (NumFaceDofs dofs)) as js. intros js. revert s.
  induction js as [|j js IHj]; intros s; [reflexivity |]. simpl. apply IHj.
Qed.

Lemma loops_nbr : forall s,
  (0 < NumEq)%nat -> (0 < NumFaceDofs dofs)%nat ->
  nbr (fm (loops s)) = NbrDofs dofs i (NumFaceDofs dofs - 1) e.
Proof.
  intros s HN HF. unfold loops.
  replace NumEq with (S (NumEq - 1)) by lia.
  rewrite seq_S, fold_left_app. simpl.
  generalize (fold_left
      (fun s n => fold_left (fun s j => step n j s) (seq 0 (NumFaceDofs dofs)) s)
      (seq 0 (NumEq - 1)) s) as s'. intros s'.
  replace (NumFaceDofs dofs) with (S (NumFaceDofs dofs - 1)) at 1 by lia.
  rewrite seq_S, fold_left_app. simpl. reflexivity.
Qed.

Lemma loops_empty : forall s,
  (NumEq = 0 \/ NumFaceDofs dofs = 0)%nat -> loops s = s.
Proof.
  intros s [H|H]; unfold loops; rewrite H; [reflexivity |].
  simpl. generalize (seq 0 NumEq). induction l; simpl; auto.
Qed.

Let r m := FaceEval NumEq ne nd dofs ShapeEvalFace inflow xSizeMPI SetBdrCond
                    x xMPI normal e i k m.

Lemma r_eq : forall m,
  r m = let s := loops {| fy1 := repeat 0 NumEq; fy2 := repeat 0 NumEq; fm := m |} in
        if (nbr (fm s) <? 0)%Z
        then (fy1 s, SetBdrCond (fy1 s) (fy2 s) normal (nbr (fm s)), fm s)
        else (fy1 s, fy2 s, fm s).
Proof. reflexivity. Qed.

(** The own-side value [y1] of equation [n] is the face trace of [x]:
    the sum over the face DOFs [j] of [x(DofInd) * ShapeEvalFace(i,j,k)],
    whatever the neighbours and the boundary treatment. *)
Theorem FaceEval_own_trace : forall m n,
  (n < NumEq)%nat ->
  nth n (fst (fst (r m))) 0 = loop_sum (t1 n) (NumFaceDofs dofs).
Proof.
  intros m n Hn. unfold r, FaceEval.
  fold (step). fold (loops {| fy1 := repeat 0 NumEq; fy2 := repeat 0 NumEq; fm := m |}).
  assert (H : nth n (fy1 (loops {| fy1 := repeat 0 NumEq; fy2 := repeat 0 NumEq; fm := m |})) 0
              = loop_sum (t1 n) (NumFaceDofs dofs)).
  { rewrite loops_fy1. simpl.
    destruct (outer_add_at t1 NumEq (NumFaceDofs dofs) NumEq (le_n _)) as [_ Hm].
    rewrite Hm. apply Nat.ltb_lt in Hn. rewrite Hn. reflexivity. }
  destruct (nbr _ <? 0)%Z; exact H.
Qed.

(** The neighbour-side value [y2] and the boundary treatment are decided
    by the neighbour of the LAST face DOF visited (equation [NumEq-1], face
    DOF [NumFaceDofs-1]), the value the member [nbr] holds after the loops:
    when it is non-negative, [y2] is the neighbour trace and [SetBdrCond]
    is not called; when it is negative, [SetBdrCond] receives [y1], the
    neighbour trace and that index. *)
Theorem FaceEval_last_dof_decides : forall m,
  (0 < NumEq)%nat -> (0 < NumFaceDofs dofs)%nat ->
  let last := NbrDofs dofs i (NumFaceDofs dofs - 1) e in
  nbr (snd (r m)) = last /\
  exists y2, List.length y2 = NumEq /\
    (forall n, (n < NumEq)%nat -> nth n y2 0 = loop_sum (t2 n) (NumFaceDofs dofs)) /\
    snd (fst (r m)) =
      (if (last <? 0)%Z then SetBdrCond (fst (fst (r m))) y2 normal last else y2).
Proof.
  intros m HN HF last. rewrite r_eq.
  set (s := loops {| fy1 := repeat 0 NumEq; fy2 := repeat 0 NumEq; fm := m |}).
  cbv zeta.
  assert (Hn : nbr (fm s) = last) by (apply loops_nbr; assumption).
  destruct (outer_add_at t2 NumEq (NumFaceDofs dofs) NumEq (le_n _)) as [Hl Hm].
  assert (Hy : fy2 s = fold_left (fun y n => fold_left (fun y j => add_at y n (t2 n j))
                         (seq 0 (NumFaceDofs dofs)) y) (seq 0 NumEq) (repeat 0 NumEq))
    by (unfold s; rewrite loops_fy2; reflexivity).
  rewrite Hn. split; [destruct (last <? 0)%Z; exact Hn |].
  exists (fy2 s). split; [rewrite Hy; exact Hl | split].
  - intros n Hlt. rewrite Hy, Hm. apply Nat.ltb_lt in Hlt. rewrite Hlt. reflexivity.
  - destruct (last <? 0)%Z; reflexivity.
Qed.

(** On a face whose neighbour DOFs all belong to this task
    ([0 <= nbr < xSizeMPI]), [y2] of equation [n] is the trace of [x] read
    at [n*ne*nd + nbr], and no boundary condition is applied. *)
Theorem FaceEval_same_task_neighbour : forall m n,
  (n < NumEq)%nat -> (0 < NumFaceDofs dofs)%nat ->
  (forall j, (j < NumFaceDofs dofs)%nat ->
     (0 <= NbrDofs dofs i j e < xSizeMPI)%Z) ->
  nth n (snd (fst (r m))) 0 =
  loop_sum (fun j => at_ x (Z.to_nat (Z.of_nat (n * ne * nd) + NbrDofs dofs i j e))
                     * ShapeEvalFace i j k) (NumFaceDofs dofs).
Proof.
  intros m n Hn HF Hnb.
  destruct (FaceEval_last_dof_decides m) as [_ [y2 [_ [Hy2 Hr]]]]; [lia | exact HF |].
  destruct (Hnb (NumFaceDofs dofs - 1)%nat) as [H0 _]; [lia |].
  rewrite Hr. destruct (Z.ltb_spec (NbrDofs dofs i (NumFaceDofs dofs - 1) e) 0);
    [lia |].
  rewrite Hy2 by exact Hn. unfold loop_sum, t2.
  assert (E : forall j, In j (seq 0 (NumFaceDofs dofs)) ->
     nbr_value NumEq ne nd dofs inflow xSizeMPI x xMPI e i n j =
     at_ x (Z.to_nat (Z.of_nat (n * ne * nd) + NbrDofs dofs i j e))).
  { intros j Hj. apply in_seq in Hj. destruct (Hnb j) as [Ha Hb]; [lia |].
    unfold nbr_value. destruct (Z.ltb_spec (NbrDofs dofs i j e) 0); [lia |].
    destruct (Z.ltb_spec (NbrDofs dofs i j e) xSizeMPI); [reflexivity | lia]. }
  apply fold_sum_ext_eq. intros j Hj. rewrite E by exact Hj. reflexivity.
Qed.

(** With no equation or no face DOF the loops do not run: [y1] and [y2]
    stay zero, the members are untouched, and the boundary treatment is
    decided by the value [nbr] kept from the previous call. *)
Theorem FaceEval_no_iteration : forall m,
  (NumEq = 0 \/ NumFaceDofs dofs = 0)%nat ->
  r m = (repeat 0 NumEq,
         (if (nbr m <? 0)%Z
          then SetBdrCond (repeat 0 NumEq) (repeat 0 NumEq) normal (nbr m)
          else repeat 0 NumEq),
         m).
Proof.
  intros m H. rewrite r_eq, loops_empty by exact H.
  simpl. destruct (nbr m <? 0)%Z; reflexivity.
Qed.

End FaceEvalFacts.

(* ------------------------------------------------------------------ *)
(** ** DOF index layouts *)

Lemma Z_block_unique : forall K q q' a b,
  (0 <= a < K)%Z -> (0 <= b < K)%Z -> (q * K + a = q' * K + b)%Z ->
  q = q' /\ a = b.
Proof.
  intros K q q' a b Ha Hb H.
  assert (q = q') by (destruct (Z.lt_trichotomy q q') as [Hl|[Hl|Hl]]; nia).
  subst. split; [reflexivity | lia].
Qed.

(** A DOF [nbr] owned by another task, at offset [m = nbr - xSizeMPI] in
    the received buffer, is read for equation [n] inside the block of
    [nd * NumEq] values of element [m / nd]. *)
Theorem mpi_index_in_block : forall NumEq nd xSizeMPI nbr n,
  (0 < nd)%nat -> (xSizeMPI <= nbr)%Z -> (n < NumEq)%nat ->
  let blk := ((nbr - xSizeMPI) / Z.of_nat nd)%Z in
  (blk * Z.of_nat nd * Z.of_nat NumEq <= mpi_index NumEq nd xSizeMPI nbr n <
   (blk + 1) * Z.of_nat nd * Z.of_nat NumEq)%Z.
Proof.
  intros NumEq nd xS nbr n Hnd Hx Hn blk. unfold mpi_index, blk.
  rewrite Z.quot_div_nonneg, Z.rem_mod_nonneg by lia.
  pose proof (Z.mod_pos_bound (nbr - xS) (Z.of_nat nd)) as Hm.
  split; nia.
Qed.

(** Different (DOF, equation) pairs of another task are read at
    different places of the received buffer. *)
Theorem mpi_index_injective : forall NumEq nd xSizeMPI nbr nbr' n n',
  (0 < nd)%nat -> (xSizeMPI <= nbr)%Z -> (xSizeMPI <= nbr')%Z ->
  (n < NumEq)%nat -> (n' < NumEq)%nat ->
  mpi_index NumEq nd xSizeMPI nbr n = mpi_index NumEq nd xSizeMPI nbr' n' ->
  nbr = nbr' /\ n = n'.
Proof.
  intros NumEq nd xS nbr nbr' n n' Hnd Hx Hx' Hn Hn' H. unfold mpi_index in H.
  rewrite !Z.quot_div_nonneg, !Z.rem_mod_nonneg in H by lia.
  pose proof (Z.mod_pos_bound (nbr - xS) (Z.of_nat nd)) as Hm.
  pose proof (Z.mod_pos_bound (nbr' - xS) (Z.of_nat nd)) as Hm'.
  pose proof (Z.div_mod (nbr - xS) (Z.of_nat nd)) as Hd.
  pose proof (Z.div_mod (nbr' - xS) (Z.of_nat nd)) as Hd'.
  destruct (Z_block_unique (Z.of_nat nd * Z.of_nat NumEq)
              ((nbr - xS) / Z.of_nat nd) ((nbr' - xS) / Z.of_nat nd)
              (Z.of_nat n * Z.of_nat nd + (nbr - xS) mod Z.of_nat nd)
              (Z.of_nat n' * Z.of_nat nd + (nbr' - xS) mod Z.of_nat nd))
    as [Hq Hr]; [nia | nia | nia |].
  destruct (Z_block_unique (Z.of_nat nd) (Z.of_nat n) (Z.of_nat n')
              ((nbr - xS) mod Z.of_nat nd) ((nbr' - xS) mod Z.of_nat nd))
    as [Hn2 Hr2]; [lia | lia | lia |].
  split; [lia | lia].
Qed.

(** The local DOF index [n*ne*nd + e*nd + b] of equation [n], element
    [e] and element DOF [b] lies in the vector of [NumEq*ne*nd] values and
    is different for different triples. *)
Theorem dof_index_layout : forall ne nd NumEq n e b n' e' b',
  (n < NumEq)%nat -> (e < ne)%nat -> (b < nd)%nat ->
  (n' < NumEq)%nat -> (e' < ne)%nat -> (b' < nd)%nat ->
  (dof_index ne nd n e b < NumEq * ne * nd)%nat /\
  (dof_index ne nd n e b = dof_index ne nd n' e' b' -> n = n' /\ e = e' /\ b = b').
Proof.
  intros ne nd NumEq n e b n' e' b' Hn He Hb Hn' He' Hb'. unfold dof_index.
  assert (Heb : (e * nd + b < ne * nd)%nat) by nia.
  assert (Hnb : (n * (ne * nd) + ne * nd <= NumEq * (ne * nd))%nat) by nia.
  split; [nia |]. intros H.
  destruct (Z_block_unique (Z.of_nat (ne * nd)) (Z.of_nat n) (Z.of_nat n')
              (Z.of_nat (e * nd + b)) (Z.of_nat (e' * nd + b'))) as [H1 H2];
    [nia | nia | nia |].
  destruct (Z_block_unique (Z.of_nat nd) (Z.of_nat e) (Z.of_nat e')
              (Z.of_nat b) (Z.of_nat b')) as [H3 H4]; [lia | lia | nia |].
  lia.
Qed.

(* ------------------------------------------------------------------ *)
(** ** More on LaxFriedrichs, ConvergenceCheck and the constructor *)

Lemma max_comm_proper : forall a a' b b',
  a == a' -> b == b' -> max a b == max b' a'.
Proof.
  intros a a' b b' Ha Hb. unfold max.
  destruct (Qlt_le_dec a b) as [H1|H1], (Qlt_le_dec b' a') as [H2|H2].
  - rewrite <- Ha, <- Hb in H2. exfalso. apply (Qlt_irrefl a).
    apply Qlt_trans with b; assumption.
  - exact Hb.
  - exact Ha.
  - rewrite <- Ha, <- Hb in H2.
    apply Qeq_trans with b; [apply Qle_antisym; assumption | exact Hb].
Qed.

Lemma dot_vadd_swap_neg : forall a b n,
  dot (vadd b a) (vscale (-1) n) == - dot (vadd a b) n.
Proof.
  induction a as [|p a IH]; intros [|q b] [|c n]; simpl; try ring.
  rewrite IH. ring.
Qed.

Lemma half_flux_swap : forall A B n w w' u v,
  w' == w ->
  veq (vscale (1 # 2) (vadd (Mult (madd B A) (vscale (-1) n)) (subtract w' v u)))
      (vscale (-1) (vscale (1 # 2) (vadd (Mult (madd A B) n) (subtract w u v)))).
Proof.
  induction A as [|ra A IH]; intros [|rb B] n w w' u v Hw; simpl; try constructor.
  destruct u as [|p u], v as [|q v]; simpl; try constructor.
  - rewrite dot_vadd_swap_neg, Hw. ring.
  - apply IH. exact Hw.
Qed.

(** The numerical flux is conservative: seen from the neighbour (states
    swapped, normal reversed) it is the opposite of the flux seen from
    the element, provided the wave speed does not depend on the
    orientation of the normal. *)
Theorem LaxFriedrichs_conservative : forall hyp st st' x1 x2 normal e k i,
  GetWaveSpeed hyp x1 (vscale (-1) normal) e k i == GetWaveSpeed hyp x1 normal e k i ->
  GetWaveSpeed hyp x2 (vscale (-1) normal) e k i == GetWaveSpeed hyp x2 normal e k i ->
  veq (fst (LaxFriedrichs hyp st' x2 x1 (vscale (-1) normal) e k i))
      (vscale (-1) (fst (LaxFriedrichs hyp st x1 x2 normal e k i))).
Proof.
  intros hyp st st' x1 x2 normal e k i H1 H2. unfold LaxFriedrichs; simpl.
  apply half_flux_swap. apply max_comm_proper; assumption.
Qed.

Lemma vsub_self_zero : forall u i, nth i (vsub u u) 0 == 0.
Proof.
  induction u as [|p u IH]; intros [|i]; simpl; try reflexivity; [ring | apply IH].
Qed.

Lemma lumped_sum_zero : forall L zv n i res,
  (forall j, nth j zv 0 == 0) -> lumped_sum L zv i n res == res.
Proof.
  intros L zv n. induction n as [|n IH]; intros i res Hz; simpl; [reflexivity |].
  rewrite IH by exact Hz. rewrite (Hz i). ring.
Qed.

Lemma sum_squares_zero : forall v,
  Forall (fun a => a == 0) v -> fold_right (fun a s => a * a + s) 0 v == 0.
Proof.
  induction v as [|a v IH]; intros H; simpl; [reflexivity |].
  inversion H as [|? ? Ha Hv]; subst. rewrite IH by exact Hv. rewrite Ha. ring.
Qed.

(** Calling ConvergenceCheck again with the same state [u] reports the
    residual of a zero update, [sqrt(q)/dt] with [q = 0], in the lumped
    (steady-state) mode always, in the consistent mode when the mass
    matrix maps the zero difference to zero. *)
Theorem ConvergenceCheck_repeat_zero :
  forall sqrt hyp MassMatMult LumpedMassMat st dt tol tol' u,
  let st1 := snd (ConvergenceCheck sqrt hyp MassMatMult LumpedMassMat st dt tol u) in
  (SteadyState hyp = false -> Forall (fun a => a == 0) (MassMatMult (vsub u u))) ->
  exists q, q == 0 /\
    fst (ConvergenceCheck sqrt hyp MassMatMult LumpedMassMat st1 dt tol' u) = sqrt q / dt.
Proof.
  intros sqrt hyp MM LM st dt tol tol' u st1 HM.
  assert (Hu : uOld st1 = u)
    by (subst st1; unfold ConvergenceCheck; destruct (SteadyState hyp); reflexivity).
  unfold ConvergenceCheck at 1. rewrite Hu.
  destruct (SteadyState hyp) eqn:Hs; simpl.
  - eexists. split; [| reflexivity].
    apply lumped_sum_zero. apply vsub_self_zero.
  - eexists. split; [| reflexivity].
    apply sum_squares_zero. apply HM. reflexivity.
Qed.

Lemma prefix_app_l : forall p1 p2 s,
  prefix (p1 ++ p2) s = true -> prefix p1 s = true.
Proof.
  induction p1 as [|c p1 IH]; intros p2 s H; [destruct s; reflexivity |].
  destruct s as [|d s]; simpl in *; [discriminate |].
  destruct (ascii_dec c d); [apply (IH p2); exact H | discriminate].
Qed.

(** The constructor completes exactly for collections whose name begins
    with ["L2_T2"] (DG, Bernstein basis) when element 0 has no face with
    an inward pointing normal. *)
Theorem FE_Evolution_ctor_success : forall fecol elem1_inward,
  (exists obj, FE_Evolution_ctor fecol elem1_inward = Constructed obj) <->
  prefix "L2_T2" fecol = true /\ elem1_inward = false.
Proof.
  intros fecol inward. split.
  - intros [obj H]. unfold FE_Evolution_ctor in H.
    destruct (Z.eqb_spec (strncmp fecol "L2" 2) 0) as [H2|H2]; [| discriminate].
    destruct (Z.eqb_spec (strncmp fecol "L2_T2" 5) 0) as [H5|H5]; [| discriminate].
    destruct inward; [discriminate |].
    split; [apply strncmp_zero_prefix; [reflexivity | exact H5] | reflexivity].
  - intros [Hp ->]. exists fecol. unfold FE_Evolution_ctor.
    pose proof (prefix_strncmp_zero "L2_T2" fecol Hp) as H5.
    pose proof (prefix_strncmp_zero "L2" fecol
                  (prefix_app_l "L2" "_T2" fecol Hp)) as H2.
    change (strncmp fecol "L2_T2" 5 = 0%Z) in H5.
    change (strncmp fecol "L2" 2 = 0%Z) in H2.
    rewrite H2, H5. reflexivity.
Qed.

(* ------------------------------------------------------------------ *)
(** ** More on the driver *)

(** Ranks other than 0 print nothing: no usage, options, problem size or
    error, whether or not the options parse. *)
Theorem main_nonzero_rank_silent : forall parse argv num_procs myid ref_levels,
  myid <> 0%nat ->
  filter is_print (fst (main parse argv num_procs myid ref_levels)) = [].
Proof.
  intros parse argv num_procs myid rl Hid. unfold main.
  destruct (parse exNDH1_options argv default_options) as [good o].
  unfold on_rank0. apply Nat.eqb_neq in Hid. rewrite Hid.
  destruct good; [| reflexivity].
  remember (repeat EvUniformRefinement rl) as R. simpl. subst R.
  rewrite filter_app, filter_repeat_false by reflexivity.
  destruct (pa o), (static_cond o), (visualization o); reflexivity.
Qed.

(** The partial-assembly flag selects the algebra: with [-pa] no matrix
    is finalized or parallel-assembled and the system is solved by CG;
    without it both forms are finalized, both are parallel-assembled and
    hypre's PCG solves the system.  Exactly one solve happens. *)
Theorem main_assembly_mode : forall parse argv num_procs myid ref_levels,
  fst (parse exNDH1_options argv default_options) = true ->
  let pa_ := pa (snd (parse exNDH1_options argv default_options)) in
  let tr := fst (main parse argv num_procs myid ref_levels) in
  filter is_solve tr = [EvSolve (if pa_ then "CG" else "HyprePCG")] /\
  filter is_matrix_build tr =
    (if pa_ then []
     else [EvFinalize "a"; EvFinalize "a_NDH1";
           EvParallelAssemble "a_NDH1"; EvParallelAssemble "a"]).
Proof.
  intros parse argv num_procs myid rl Hgood pa_ tr. subst pa_ tr.
  open_main; rewrite !filter_app, !filter_repeat_false by reflexivity;
    split; reflexivity.
Qed.

(** Static condensation is enabled exactly when requested, and then
    before the forms are assembled. *)
Theorem main_static_condensation : forall parse argv num_procs myid ref_levels,
  fst (parse exNDH1_options argv default_options) = true ->
  filter is_sc_or_assemble (fst (main parse argv num_procs myid ref_levels)) =
    (if static_cond (snd (parse exNDH1_options argv default_options))
     then [EvEnableStaticCondensation] else []) ++
    [EvAssemble "a"; EvAssemble "a_NDH1"].
Proof.
  intros parse argv num_procs myid rl Hgood.
  open_main; rewrite !filter_app, !filter_repeat_false by reflexivity; reflexivity.
Qed.

Lemma read_digits_append : forall a b acc,
  read_digits (append a b) acc = read_digits b (read_digits a acc).
Proof. induction a as [|c a IH]; intros b acc; simpl; [reflexivity | apply IH]. Qed.

Lemma read_digits_uint : forall d acc,
  read_digits (string_of_uint d) acc = Nat.of_uint_acc d acc.
Proof.
  induction d as [| d IH | d IH | d IH | d IH | d IH | d IH | d IH | d IH | d IH | d IH];
    intros acc; simpl; try reflexivity;
    rewrite IH; f_equal; rewrite Nat.tail_mul_spec; lia.
Qed.

Lemma read_digits_zeros : forall k,
  read_digits (String.concat "" (repeat "0"%string k)) 0 = 0%nat.
Proof.
  induction k as [|k IH]; [reflexivity |].
  destruct k as [|k]; [reflexivity |].
  change (String.concat "" (repeat "0"%string (S (S k))))
    with (append "0" (append "" (String.concat "" (repeat "0"%string (S k))))).
  rewrite read_digits_append. exact IH.
Qed.

Lemma read_setw6 : forall n, read_digits (setw6 n) 0 = n.
Proof.
  intros n. unfold setw6. rewrite read_digits_append, read_digits_zeros.
  unfold decimal. rewrite read_digits_uint. apply DecimalNat.Unsigned.of_to.
Qed.

(** Different ranks write different mesh files and different solution
    files. *)
Theorem output_names_distinct : forall myid myid',
  myid <> myid' ->
  mesh_name myid <> mesh_name myid' /\ sol_name myid <> sol_name myid'.
Proof.
  intros a b Hab. split; intros H; apply Hab;
    unfold mesh_name, sol_name in H; simpl in H;
    repeat match goal with H : String _ _ = String _ _ |- _ => injection H as H end;
    rewrite <- (read_setw6 a), <- (read_setw6 b), H; reflexivity.
Qed.

(* ------------------------------------------------------------------ *)
(** ** exNDH1: exact solution and refinement count, facts *)

Section ExactSolutionFacts.
Local Open Scope R_scope.

Lemma dlim_ext_l : forall f x l l',
  derivable_pt_lim f x l -> l = l' -> derivable_pt_lim f x l'.
Proof. intros f x l l' H E. subst. exact H. Qed.

Lemma dlim_mul2 : forall f1 f2 d1 d2 x,
  derivable_pt_lim f1 x d1 -> derivable_pt_lim f2 x d2 ->
  derivable_pt_lim (fun t => f1 t * f2 t) x (d1 * f2 x + f1 x * d2).
Proof. intros. apply (derivable_pt_lim_mult f1 f2); assumption. Qed.

Lemma dlim_mul3 : forall f1 f2 f3 d1 d2 d3 x,
  derivable_pt_lim f1 x d1 -> derivable_pt_lim f2 x d2 ->
  derivable_pt_lim f3 x d3 ->
  derivable_pt_lim (fun t => f1 t * f2 t * f3 t) x
    ((d1 * f2 x + f1 x * d2) * f3 x + (f1 x * f2 x) * d3).
Proof.
  intros. apply (derivable_pt_lim_mult (fun t => f1 t * f2 t) f3);
    [apply dlim_mul2|]; assumption.
Qed.

Lemma dlim_sin_or_const : forall (c : R) x,
  derivable_pt_lim sin x (cos x) /\ derivable_pt_lim (fun _ => c) x 0.
Proof.
  intros c x. split; [apply derivable_pt_lim_sin | apply derivable_pt_lim_const].
Qed.

Ltac dlim_factor :=
  first [ apply derivable_pt_lim_sin
        | apply (derivable_pt_lim_const _)
        | exact (proj2 (dlim_sin_or_const _ _)) ].

(** On a mesh of dimension 2 or 3, [gradp_exact] writes the gradient of
    [p_exact]: for each component [i] of the point, [f(i)] is the partial
    derivative of [p_exact] in [x(i)]. With [dim = 2] and a point of size
    3, [f(2) = 0] is the derivative in the third coordinate, on which
    [p_exact] does not depend. *)
Theorem gradp_exact_is_gradient : forall dim x xsize f i,
  ((dim = 3%Z /\ xsize = 3%nat) \/
   (dim = 2%Z /\ (xsize = 2%nat \/ xsize = 3%nat))) ->
  (i < xsize)%nat ->
  derivable_pt_lim (fun t => p_exact dim (set_entry x i t)) (x i)
    (gradp_exact dim x xsize f i).
Proof.
  intros dim x xsize f i Hd Hi.
  destruct Hd as [[-> ->] | [-> [-> | ->]]];
    (destruct i as [|[|[|i]]]; [| | | lia]);
    unfold p_exact, gradp_exact, set_entry; cbn -[sin cos];
    try (eapply dlim_ext_l;
         [ first [ apply dlim_mul3 | apply dlim_mul2 ]; dlim_factor
         | cbn -[sin cos]; ring ]);
    try lia;
    try (apply (derivable_pt_lim_const (sin (x 0%nat) * sin (x 1%nat)))).
Qed.




End ExactSolutionFacts.

(* ------------------------------------------------------------------ *)
(** ** Instances of the properties above *)

Lemma ElemEval_constant_witness :
  (0 < 1)%nat /\
  (forall j, (j < 2)%nat -> nth (0 * 2 + j) [3; 3] 0 == 3) /\
  loop_sum (fun j => entry [[1 # 2]; [1 # 2]] j 0) 2 == 1 /\
  nth 0 (ElemEval 1 2 [[1 # 2]; [1 # 2]] [3; 3] 0) 0 == 3.
Proof.
  assert (H1 : (0 < 1)%nat) by lia.
  assert (H2 : forall j, (j < 2)%nat -> nth (0 * 2 + j) [3; 3] 0 == 3)
    by (intros [|[|j]] Hj; [vm_compute; reflexivity | vm_compute; reflexivity | lia]).
  assert (H3 : loop_sum (fun j => entry [[1 # 2]; [1 # 2]] j 0) 2 == 1)
    by (vm_compute; reflexivity).
  split; [exact H1 | split; [exact H2 | split; [exact H3 |]]].
  apply (ElemEval_constant 1 2 [[1 # 2]; [1 # 2]] [3; 3] 0 0 3); assumption.
Defined.

Lemma ElemEval_linear_witness :
  List.length [1; 2] = List.length [3; 4] /\
  veq (ElemEval 1 2 [[1 # 2]; [1 # 2]] (vadd (vscale 2 [1; 2]) [3; 4]) 0)
      (vadd (vscale 2 (ElemEval 1 2 [[1 # 2]; [1 # 2]] [1; 2] 0))
            (ElemEval 1 2 [[1 # 2]; [1 # 2]] [3; 4] 0)).
Proof.
  split; [reflexivity |].
  apply (ElemEval_linear 1 2 [[1 # 2]; [1 # 2]] [1; 2] [3; 4] 2 0). reflexivity.
Defined.

Lemma FaceEval_own_trace_witness :
  (0 < 1)%nat /\
  nth 0 (fst (fst (FaceEval 1 1 2 dofs2 shape_half [0; 0] 2 bdr_mirror
                     [3; 5] [] [1] 0 0 0 members_bdr))) 0 =
  loop_sum (fun j => at_ [3; 5] (dof_index 1 2 0 0 (BdrDofs dofs2 j 0))
                     * shape_half 0 j 0) (NumFaceDofs dofs2).
Proof.
  split; [lia |].
  apply (FaceEval_own_trace 1 1 2 dofs2 shape_half [0; 0] 2 bdr_mirror
           [3; 5] [] [1] 0 0 0 members_bdr 0).
  lia.
Defined.

Lemma FaceEval_last_dof_decides_witness :
  (0 < 1)%nat /\ (0 < NumFaceDofs dofs2)%nat /\
  let r := FaceEval 1 1 2 dofs2 shape_half [0; 0] 2 bdr_mirror
             [3; 5] [] [1] 0 0 0 members_bdr in
  let last := NbrDofs dofs2 0 (NumFaceDofs dofs2 - 1) 0 in
  nbr (snd r) = last /\
  exists y2, List.length y2 = 1%nat /\
    (forall n, (n < 1)%nat -> nth n y2 0 =
       loop_sum (fun j => nbr_value 1 1 2 dofs2 [0; 0] 2 [3; 5] [] 0 0 n j
                          * shape_half 0 j 0) (NumFaceDofs dofs2)) /\
    snd (fst r) =
      (if (last <? 0)%Z then bdr_mirror (fst (fst r)) y2 [1] last else y2).
Proof.
  split; [lia | split; [vm_compute; lia |]].
  apply (FaceEval_last_dof_decides 1 1 2 dofs2 shape_half [0; 0] 2 bdr_mirror
           [3; 5] [] [1] 0 0 0 members_bdr); vm_compute; lia.
Defined.

Lemma FaceEval_same_task_neighbour_witness :
  (0 < 1)%nat /\ (0 < NumFaceDofs dofs2)%nat /\
  (forall j, (j < NumFaceDofs dofs2)%nat -> (0 <= NbrDofs dofs2 0 j 0 < 2)%Z) /\
  nth 0 (snd (fst (FaceEval 1 1 2 dofs2 shape_half [0; 0] 2 bdr_mirror
                     [3; 5] [] [1] 0 0 0 members_bdr))) 0 =
  loop_sum (fun j => at_ [3; 5] (Z.to_nat (Z.of_nat (0 * 1 * 2) + NbrDofs dofs2 0 j 0))
                     * shape_half 0 j 0) (NumFaceDofs dofs2).
Proof.
  assert (H3 : forall j, (j < NumFaceDofs dofs2)%nat ->
                 (0 <= NbrDofs dofs2 0 j 0 < 2)%Z)
    by (intros j Hj; simpl in *; lia).
  split; [lia | split; [vm_compute; lia | split; [exact H3 |]]].
  apply (FaceEval_same_task_neighbour 1 1 2 dofs2 shape_half [0; 0] 2 bdr_mirror
           [3; 5] [] [1] 0 0 0 members_bdr 0); [lia | vm_compute; lia | exact H3].
Defined.

Lemma FaceEval_no_iteration_witness :
  (1 = 0 \/ NumFaceDofs dofs_none = 0)%nat /\
  FaceEval 1 1 2 dofs_none shape_half [0; 0] 2 bdr_mirror
    [3; 5] [] [1] 0 0 0 members_bdr =
  (repeat 0 1,
   (if (nbr members_bdr <? 0)%Z
    then bdr_mirror (repeat 0 1) (repeat 0 1) [1] (nbr members_bdr)
    else repeat 0 1),
   members_bdr).
Proof.
  split; [right; reflexivity |].
  apply (FaceEval_no_iteration 1 1 2 dofs_none shape_half [0; 0] 2 bdr_mirror
           [3; 5] [] [1] 0 0 0 members_bdr).
  right; reflexivity.
Defined.

Lemma mpi_index_in_block_witness :
  (0 < 3)%nat /\ (10 <= 17)%Z /\ (1 < 2)%nat /\
  (((17 - 10) / Z.of_nat 3) * Z.of_nat 3 * Z.of_nat 2 <= mpi_index 2 3 10 17 1 <
   ((17 - 10) / Z.of_nat 3 + 1) * Z.of_nat 3 * Z.of_nat 2)%Z.
Proof.
  split; [lia | split; [lia | split; [lia |]]].
  apply (mpi_index_in_block 2 3 10 17 1); lia.
Defined.

Lemma mpi_index_injective_witness :
  (0 < 3)%nat /\ (10 <= 17)%Z /\ (1 < 2)%nat /\
  mpi_index 2 3 10 17 1 = mpi_index 2 3 10 17 1 /\
  (17 = 17)%Z /\ 1%nat = 1%nat.
Proof.
  split; [lia | split; [lia | split; [lia | split; [reflexivity |]]]].
  apply (mpi_index_injective 2 3 10 17 17 1 1); [lia | lia | lia | lia | lia | reflexivity].
Defined.

Lemma dof_index_layout_witness :
  (1 < 2)%nat /\ (1 < 2)%nat /\ (2 < 3)%nat /\
  (dof_index 2 3 1 1 2 < 2 * 2 * 3)%nat /\
  (dof_index 2 3 1 1 2 = dof_index 2 3 1 0 0 -> 1%nat = 1%nat /\ 1%nat = 0%nat /\ 2%nat = 0%nat).
Proof.
  split; [lia | split; [lia | split; [lia |]]].
  apply (dof_index_layout 2 3 2 1 1 2 1 0 0); lia.
Defined.

Lemma LaxFriedrichs_conservative_witness :
  GetWaveSpeed advection [3] (vscale (-1) [1; 0]) 0 0 0 ==
    GetWaveSpeed advection [3] [1; 0] 0 0 0 /\
  GetWaveSpeed advection [1] (vscale (-1) [1; 0]) 0 0 0 ==
    GetWaveSpeed advection [1] [1; 0] 0 0 0 /\
  veq (fst (LaxFriedrichs advection state0 [1] [3] (vscale (-1) [1; 0]) 0 0 0))
      (vscale (-1) (fst (LaxFriedrichs advection state0 [3] [1] [1; 0] 0 0 0))).
Proof.
  split; [vm_compute; reflexivity | split; [vm_compute; reflexivity |]].
  apply (LaxFriedrichs_conservative advection state0 state0 [3] [1] [1; 0] 0 0 0);
    vm_compute; reflexivity.
Defined.

Lemma ConvergenceCheck_repeat_zero_witness :
  (SteadyState advection = false ->
   Forall (fun a => a == 0) ((fun v : vec => v) (vsub [2] [2]))) /\
  let st1 := snd (ConvergenceCheck (fun q => q) advection (fun v => v) [1]
                    state0 1 1 [2]) in
  exists q, q == 0 /\
    fst (ConvergenceCheck (fun q => q) advection (fun v => v) [1] st1 1 (1 # 2) [2])
    = (fun q => q) q / 1.
Proof.
  assert (H : SteadyState advection = false ->
              Forall (fun a => a == 0) ((fun v : vec => v) (vsub [2] [2])))
    by (intros _; vm_compute; repeat constructor).
  split; [exact H |].
  apply (ConvergenceCheck_repeat_zero (fun q => q) advection (fun v => v) [1]
           state0 1 1 (1 # 2) [2]).
  exact H.
Defined.

Lemma main_nonzero_rank_silent_witness :
  1%nat <> 0%nat /\ filter is_print (fst (main parse_ok [] 4 1 2)) = [].
Proof.
  split; [lia |].
  apply (main_nonzero_rank_silent parse_ok [] 4 1 2). lia.
Defined.

Lemma main_assembly_mode_witness :
  fst (parse_ok exNDH1_options [] default_options) = true /\
  let pa_ := pa (snd (parse_ok exNDH1_options [] default_options)) in
  let tr := fst (main parse_ok [] 4 0 2) in
  filter is_solve tr = [EvSolve (if pa_ then "CG" else "HyprePCG")] /\
  filter is_matrix_build tr =
    (if pa_ then []
     else [EvFinalize "a"; EvFinalize "a_NDH1";
           EvParallelAssemble "a_NDH1"; EvParallelAssemble "a"]).
Proof.
  split; [reflexivity |].
  apply (main_assembly_mode parse_ok [] 4 0 2). reflexivity.
Defined.

Lemma main_static_condensation_witness :
  fst (parse_ok exNDH1_options [] default_options) = true /\
  filter is_sc_or_assemble (fst (main parse_ok [] 4 0 2)) =
    (if static_cond (snd (parse_ok exNDH1_options [] default_options))
     then [EvEnableStaticCondensation] else []) ++
    [EvAssemble "a"; EvAssemble "a_NDH1"].
Proof.
  split; [reflexivity |].
  apply (main_static_condensation parse_ok [] 4 0 2). reflexivity.
Defined.

Lemma output_names_distinct_witness :
  1%nat <> 2%nat /\
  mesh_name 1 <> mesh_name 2 /\ sol_name 1 <> sol_name 2.
Proof.
  split; [lia |].
  apply (output_names_distinct 1 2). lia.
Defined.

Lemma gradp_exact_is_gradient_witness :
  ((3%Z = 3%Z /\ 3%nat = 3%nat) \/ (3%Z = 2%Z /\ (3%nat = 2%nat \/ 3%nat = 3%nat))) /\
  (1 < 3)%nat /\
  derivable_pt_lim (fun t => p_exact 3 (set_entry (fun _ => 0%R) 1 t)) 0%R
    (gradp_exact 3 (fun _ => 0%R) 3 (fun _ => 0%R) 1).
Proof.
  split; [left; split; reflexivity | split; [lia |]].
  apply (gradp_exact_is_gradient 3 (fun _ => 0%R) 3 (fun _ => 0%R) 1);
    [left; split; reflexivity | lia].
Defined.

